(** * The QML scaffold's [main]: version gateway and UI loader

    A shallow embedding of [scaffolds/vfx/qml/src/main.cpp].  The program
    is a single [main]: it prints the USD version on [std::cout],
    publishes the same version as the context property ["usdVersion"],
    connects a closure to the engine's [objectCreated] signal with
    [Qt::QueuedConnection], loads [qrc:/main.qml] and enters the event
    loop.

    The collaborators ([std::ostream], [pxr::UsdGetVersion], the QML
    engine, the signal dispatcher and the event loop) live outside
    [main.cpp]; each gets a small executable model here, and what they do
    on their own (which signals the engine emits, when the host ends the
    loop) is left to a [Host] record over which every theorem
    quantifies.

    [main] is the program as long as no signal ends the process;
    [main_process] is the same sequence of statements with the one signal
    they can raise, SIGPIPE at the flush of [std::endl]. *)

From stdpp Require Import gmap strings list pretty.
From Stdlib Require Import ZArith Lia.

Local Open Scope Z_scope.
#[local] Set Warnings "-clear-no-such-hyp".

(** ** Values *)

(** A [QUrl], compared with [operator==]. *)
Abbreviation QUrl := string (only parsing).

(** A [QObject*]: [None] is [nullptr], [Some a] an object at address [a]. *)
Abbreviation QObjectPtr := (option positive) (only parsing).

(** [Qt::ConnectionType], the three kinds that make sense in one thread. *)
Inductive ConnectionType :=
  | AutoConnection
  | DirectConnection
  | QueuedConnection.

(** The arguments of one [objectCreated(QObject*, const QUrl&)] emission. *)
Record LoadOutcome := mkOutcome {
  lo_obj : QObjectPtr;
  lo_url : QUrl }.

(** The functors connected in this program, defunctionalised: there is one
    closure, [[url](QObject *obj, const QUrl &objUrl) {...}], and its only
    capture is [url] (by value). *)
Inductive Slot :=
  | ObjectCreatedLambda (captured_url : QUrl).

Record Connection := mkConnection {
  conn_slot : Slot;
  conn_type : ConnectionType }.

(** What an observer of the process can see, in the order it happens. *)
Inductive Event :=
  | EvQueryVersion                                  (* a call of pxr::UsdGetVersion *)
  | EvCout (text : string)                          (* an insertion into std::cout *)
  | EvSetContextProperty (key value : string)       (* a write to the root context *)
  | EvConnect (c : Connection)
  | EvLoadCall (u : QUrl) (ctx : gmap string string) (* engine.load(u) entered; [ctx] is the root context it reads *)
  | EvEmit (o : LoadOutcome)                        (* objectCreated emitted *)
  | EvLoadReturn (u : QUrl)                         (* engine.load(u) returned *)
  | EvExecCall                                      (* app.exec() entered *)
  | EvSlot (s : Slot) (o : LoadOutcome)             (* a connected functor is called *)
  | EvExit (code : Z).                              (* QCoreApplication::exit(code) *)

(** [std::cout]: [good] is [rdstate() == goodbit], [sink_ok] tells whether
    the device behind the stream takes the bytes of a write (otherwise the
    write returns an error), [written] is what has reached it. *)
Record ostream := mkOstream {
  good : bool;
  sink_ok : bool;
  written : string }.

(** The state [main] runs in. *)
Record World := mkWorld {
  pxr_version : Z;                     (* PXR_VERSION of the linked USD build *)
  cout : ostream;
  cout_pending : string;               (* bytes std::cout holds back until a flush *)
  rootContext : gmap string string;    (* engine.rootContext(): context properties *)
  connections : list Connection;       (* connections of engine's objectCreated *)
  posted : list (Slot * LoadOutcome);  (* queued calls waiting in the thread's event queue *)
  quit_code : option Z;                (* exit asked of the running loop, with its code *)
  trace : list Event }.

(** What the surroundings decide. *)
Record Host := mkHost {
  host_version : Z;                       (* the USD build linked in *)
  host_cout : ostream;                    (* the state std::cout starts in *)
  host_load : list LoadOutcome;           (* objectCreated emissions inside engine.load *)
  host_turns : list (list LoadOutcome);   (* emissions in each later turn of the loop *)
  host_exit : option Z }.                 (* code with which the host ends the loop on
                                             its own; None when it never does *)

(** ** Field updates *)

Definition set_cout (f : ostream → ostream) (w : World) : World :=
  mkWorld (pxr_version w) (f (cout w)) (cout_pending w) (rootContext w) (connections w)
          (posted w) (quit_code w) (trace w).

Definition set_cout_pending (f : string → string) (w : World) : World :=
  mkWorld (pxr_version w) (cout w) (f (cout_pending w)) (rootContext w)
          (connections w) (posted w) (quit_code w) (trace w).

Definition set_rootContext (f : gmap string string → gmap string string)
    (w : World) : World :=
  mkWorld (pxr_version w) (cout w) (cout_pending w) (f (rootContext w)) (connections w)
          (posted w) (quit_code w) (trace w).

Definition set_connections (f : list Connection → list Connection)
    (w : World) : World :=
  mkWorld (pxr_version w) (cout w) (cout_pending w) (rootContext w) (f (connections w))
          (posted w) (quit_code w) (trace w).

Definition set_posted (f : list (Slot * LoadOutcome) → list (Slot * LoadOutcome))
    (w : World) : World :=
  mkWorld (pxr_version w) (cout w) (cout_pending w) (rootContext w) (connections w)
          (f (posted w)) (quit_code w) (trace w).

Definition set_quit_code (q : option Z) (w : World) : World :=
  mkWorld (pxr_version w) (cout w) (cout_pending w) (rootContext w) (connections w)
          (posted w) q (trace w).

Definition log (e : Event) (w : World) : World :=
  mkWorld (pxr_version w) (cout w) (cout_pending w) (rootContext w) (connections w)
          (posted w) (quit_code w) (trace w ++ [e]).

(** ** A state monad for the statements of [main] *)

Definition M (A : Type) : Type := World → A * World.

#[global] Instance M_ret : MRet M := λ A a w, (a, w).
#[global] Instance M_bind : MBind M := λ A B f m w, let '(a, w') := m w in f a w'.

(** ** The collaborators *)

(** Modelled from the spec: [pxr::UsdGetVersion] belongs to the USD library,
    not to [main.cpp]; the spec makes the version query a pure,
    side-effect-free read of the library's compile/link-time identity that
    cannot fail.  The call is recorded in the trace so that calls can be
    counted. *)
Definition UsdGetVersion : M Z :=
  λ w, (pxr_version w, log EvQueryVersion w).

(** [std::to_string(int)]: the decimal text, with a leading [-] below zero. *)
Definition to_string (n : Z) : string := pretty n.

(** [std::cout << s] with the exception mask empty (the default, and [main]
    never changes it): on a good stream the text joins the bytes held back
    for the next flush, on any other stream nothing happens.  The call
    returns either way. *)
Definition cout_insert (s : string) : M () :=
  λ w, ((), log (EvCout s)
              (if good (cout w) then set_cout_pending (λ p, p +:+ s) w else w)).

(** The newline [std::endl] puts before it flushes. *)
Definition endl : string := String (Ascii.ascii_of_nat 10) EmptyString.

(** A flush whose write returns: the bytes held back reach the device, or
    the device refuses them with an error and the stream turns bad.  A
    stream that is not good attempts no write. *)
Definition ostream_flush (pending : string) (os : ostream) : ostream :=
  if good os then
    if sink_ok os then mkOstream true true (written os +:+ pending)
    else mkOstream false false (written os)
  else os.

Definition cout_flush (w : World) : World :=
  set_cout_pending
    (λ p, if good (cout w) && sink_ok (cout w) then "" else p)
    (set_cout (ostream_flush (cout_pending w)) w).

(** [std::cout << std::endl] when the write of the flush returns. *)
Definition cout_endl : M () :=
  λ w, ((), cout_flush (snd (cout_insert endl w))).

(** [QGuiApplication app(argc, argv)]: an event queue with nothing posted
    and no loop running. *)
Definition QGuiApplication_new : M () :=
  λ w, ((), set_quit_code None (set_posted (λ _, []) w)).

(** [QQmlApplicationEngine engine]: a root context without properties and
    an [objectCreated] signal without connections. *)
Definition QQmlApplicationEngine_new : M () :=
  λ w, ((), set_connections (λ _, []) (set_rootContext (λ _, ∅) w)).

(** [engine.rootContext()->setContextProperty(k, v)]; the value is stored
    by value. *)
Definition setContextProperty (k v : string) : M () :=
  λ w, ((), log (EvSetContextProperty k v) (set_rootContext (<[k:=v]>) w)).

(** [QCoreApplication::exit(code)]: asks the running loop to return [code]. *)
Definition QCoreApplication_exit (code : Z) (w : World) : World :=
  log (EvExit code) (set_quit_code (Some code) w).

(** [url == objUrl]. *)
Definition QUrl_eqb (a b : QUrl) : bool := bool_decide (a = b).

(** The closure connected to [objectCreated] (main.cpp, lines 23-26):
<<
    [url](QObject *obj, const QUrl &objUrl) {
        if (!obj && url == objUrl)
            QCoreApplication::exit(-1);
    }
>> *)
Definition objectCreated_lambda (url : QUrl) (obj : QObjectPtr) (objUrl : QUrl)
    (w : World) : World :=
  if negb (bool_decide (is_Some obj)) && QUrl_eqb url objUrl
  then QCoreApplication_exit (-1) w
  else w.

(** Calling a connected functor with the arguments of an emission. *)
Definition invoke (s : Slot) (o : LoadOutcome) (w : World) : World :=
  match s with
  | ObjectCreatedLambda u =>
      objectCreated_lambda u (lo_obj o) (lo_url o) (log (EvSlot s o) w)
  end.

(** Modelled from the spec: the signal dispatcher belongs to Qt, not to
    [main.cpp].  A queued connection posts the call to the receiver's event queue, to run
    on the same thread once the current call stack has unwound; a direct
    connection (and an automatic one, sender and receiver sharing the
    thread) calls the functor in place. *)
Definition activate (o : LoadOutcome) (w : World) (c : Connection) : World :=
  match conn_type c with
  | QueuedConnection => set_posted (λ q, q ++ [(conn_slot c, o)]) w
  | DirectConnection | AutoConnection => invoke (conn_slot c) o w
  end.

(** [emit objectCreated(obj, url)]: every connection, in connection order. *)
Definition emit_objectCreated (w : World) (o : LoadOutcome) : World :=
  fold_left (activate o) (connections w) (log (EvEmit o) w).

(** [QObject::connect(&engine, &QQmlApplicationEngine::objectCreated, &app,
    functor, type)]. *)
Definition connect (s : Slot) (t : ConnectionType) : M () :=
  λ w, ((), log (EvConnect (mkConnection s t))
              (set_connections (λ cs, cs ++ [mkConnection s t]) w)).

(** One pass over the event queue: the calls posted so far run in posting
    order; calls posted meanwhile wait for the next pass. *)
Definition sendPostedEvents (w : World) : World :=
  fold_left (λ w '(s, o), invoke s o w) (posted w) (set_posted (λ _, []) w).

Section Host.
Variable host : Host.

(** [engine.load(u)]: the engine reads the root context and emits what
    the host decides; it returns no result. *)
Definition load (u : QUrl) : M () :=
  λ w, ((), log (EvLoadReturn u)
              (fold_left emit_objectCreated (host_load host)
                 (log (EvLoadCall u (rootContext w)) w))).

(** Modelled from the spec: the event loop belongs to Qt, not to
    [main.cpp].  Each turn delivers the posted calls; the loop returns the exit code once a
    delivered call has asked for it, otherwise the host's next emissions
    happen, and when the host has nothing more the loop ends the way the
    host ends it. *)
Fixpoint event_loop (turns : list (list LoadOutcome)) (w : World)
    : option Z * World :=
  let w1 := sendPostedEvents w in
  match quit_code w1 with
  | Some c => (Some c, w1)
  | None =>
      match turns with
      | [] => (host_exit host, w1)
      | t :: turns' => event_loop turns' (fold_left emit_objectCreated t w1)
      end
  end.

(** [app.exec()]: an exit asked for before the loop runs is forgotten.
    The result is the loop's return code, [None] when it never ends. *)
Definition exec : M (option Z) :=
  λ w, event_loop (host_turns host) (log EvExecCall (set_quit_code None w)).

(** ** The program *)

(** [const QUrl url(QStringLiteral("qrc:/main.qml"))]. *)
Definition url : QUrl := "qrc:/main.qml".

(** Lines 13-14: [// USD Version Check],
    [std::cout << "USD Version: " << pxr::UsdGetVersion() << std::endl].
    The operands of [<<] are taken left to right (the order C++17 fixes);
    the query being a pure read, another order changes the place of its
    trace event and nothing else. *)
Definition version_check : M () :=
  cout_insert "USD Version: ";;
  v ← UsdGetVersion;
  cout_insert (to_string v);;
  cout_endl.

(** Lines 18-19: [// Register USD version to QML].
    [QString::fromStdString] keeps the decimal digits as they are. *)
Definition register_version : M () :=
  v ← UsdGetVersion;
  setContextProperty "usdVersion" (to_string v).

(** Lines 21-29: connect, load, run. *)
Definition load_and_run : M (option Z) :=
  connect (ObjectCreatedLambda url) QueuedConnection;;
  load url;;
  exec.

(** [int main(int argc, char *argv[])]; the result is the value [main]
    returns, [None] when [app.exec()] never returns. *)
Definition main : M (option Z) :=
  QGuiApplication_new;;
  version_check;;
  QQmlApplicationEngine_new;;
  register_version;;
  load_and_run.

(** The world the process starts in. *)
Definition init : World :=
  mkWorld (host_version host) (host_cout host) "" ∅ [] [] None [].

Definition main_status : option Z := fst (main init).
Definition main_world : World := snd (main init).
End Host.

(** ** The process and the signal that can end it *)

Inductive Signal :=
  | SIGPIPE.

(** How far a sequence of statements gets: to its end, with a result, or
    to the signal that ends the process. *)
Inductive Outcome (A : Type) :=
  | Ran (a : A) (w : World)
  | Killed (sig : Signal) (w : World).
Arguments Ran {A} a w.
Arguments Killed {A} sig w.

Definition P (A : Type) : Type := World → Outcome A.

#[global] Instance P_ret : MRet P := λ A a w, Ran a w.
#[global] Instance P_bind : MBind P := λ A B f m w,
  match m w with
  | Ran a w' => f a w'
  | Killed sig w' => Killed sig w'
  end.

(** A statement that raises no signal. *)
Definition lift {A} (m : M A) : P A :=
  λ w, let '(a, w') := m w in Ran a w'.

(** [std::cout << std::endl] on file descriptor 1 as the process finds it.
    When it is a pipe whose reader is gone, the write of the flush raises
    SIGPIPE; [main] installs no handler and does not ignore the signal, so
    its default action ends the process inside the call.  A stream that is
    not good attempts no write. *)
Definition cout_endl_fd (reader_gone : bool) : P () :=
  λ w, let w1 := snd (cout_insert endl w) in
       if reader_gone && good (cout w1) then Killed SIGPIPE w1
       else Ran () (cout_flush w1).

(** [main], statement by statement as above, with that signal. *)
Definition main_process (reader_gone : bool) (h : Host) : P (option Z) :=
  lift QGuiApplication_new;;
  lift (cout_insert "USD Version: ");;
  v ← lift UsdGetVersion;
  lift (cout_insert (to_string v));;
  cout_endl_fd reader_gone;;
  lift QQmlApplicationEngine_new;;
  lift register_version;;
  lift (load_and_run h).

Definition killed_by {A} (o : Outcome A) : option Signal :=
  match o with Ran _ _ => None | Killed sig _ => Some sig end.

Definition outcome_world {A} (o : Outcome A) : World :=
  match o with Ran _ w => w | Killed _ w => w end.

(** ** Closed forms

    What the connected closure and the event loop add to the trace, as
    functions of the emissions alone.  The lemmas below show that the
    stateful definitions above compute exactly these. *)

(** The test of the closure: [!obj && url == objUrl]. *)
Definition fails (u : QUrl) (o : LoadOutcome) : bool :=
  negb (bool_decide (is_Some (lo_obj o))) && QUrl_eqb u (lo_url o).

(** The events of delivering the emissions [os] to the closure. *)
Definition slot_events (u : QUrl) (os : list LoadOutcome) : list Event :=
  flat_map (λ o, EvSlot (ObjectCreatedLambda u) o ::
                 if fails u o then [EvExit (-1)] else []) os.

(** The events of the loop from a queue holding [os]; the flag tells
    whether the loop ended on the closure's [exit(-1)]. *)
Fixpoint loop_events (u : QUrl) (turns : list (list LoadOutcome))
    (os : list LoadOutcome) : bool * list Event :=
  if existsb (fails u) os then (true, slot_events u os)
  else match turns with
       | [] => (false, slot_events u os)
       | t :: turns' =>
           let '(b, es) := loop_events u turns' t in
           (b, slot_events u os ++ map EvEmit t ++ es)
       end.

(** The line [main] sends to [std::cout]. *)
Definition diagnostic_line (h : Host) : string :=
  ("USD Version: " +:+ to_string (host_version h)) +:+ endl.

(** The events of [main] up to the call of [app.exec()]. *)
Definition startup_events (h : Host) : list Event :=
  [ EvCout "USD Version: "; EvQueryVersion;
    EvCout (to_string (host_version h)); EvCout endl;
    EvQueryVersion;
    EvSetContextProperty "usdVersion" (to_string (host_version h));
    EvConnect (mkConnection (ObjectCreatedLambda url) QueuedConnection);
    EvLoadCall url {[ "usdVersion" := to_string (host_version h) ]} ]
  ++ map EvEmit (host_load h)
  ++ [ EvLoadReturn url; EvExecCall ].

(** [e1] happens before [e2] in the trace [tr]. *)
Definition before (e1 e2 : Event) (tr : list Event) : Prop :=
  ∃ l1 l2 l3, tr = l1 ++ e1 :: l2 ++ e2 :: l3.

Definition is_query (e : Event) : bool :=
  match e with EvQueryVersion => true | _ => false end.

Definition is_context_write (e : Event) : bool :=
  match e with EvSetContextProperty _ _ => true | _ => false end.

Definition is_slot (e : Event) : bool :=
  match e with EvSlot _ _ => true | _ => false end.

Definition is_cout (e : Event) : bool :=
  match e with EvCout _ => true | _ => false end.

Definition is_load_call (e : Event) : bool :=
  match e with EvLoadCall _ _ => true | _ => false end.

(** How many events of a kind a trace holds. *)
Definition count_events (p : Event → bool) (tr : list Event) : nat :=
  length (List.filter p tr).

(** The same surroundings with another [std::cout]. *)
Definition with_cout (c : ostream) (h : Host) : Host :=
  mkHost (host_version h) c (host_load h) (host_turns h) (host_exit h).

(** The part of the world the dispatcher and the loop never write. *)
Definition static (w : World)
    : Z * ostream * gmap string string * list Connection :=
  (pxr_version w, cout w, rootContext w, connections w).

(** The same surroundings without the emissions for other urls than the
    one [main] loads. *)
Definition for_url (u : QUrl) (o : LoadOutcome) : bool := QUrl_eqb u (lo_url o).

Definition without_mismatched (h : Host) : Host :=
  mkHost (host_version h) (host_cout h)
         (List.filter (for_url url) (host_load h))
         (map (List.filter (for_url url)) (host_turns h))
         (host_exit h).

Definition is_emit (e : Event) : bool :=
  match e with EvEmit _ => true | _ => false end.

Definition is_exit (e : Event) : bool :=
  match e with EvExit _ => true | _ => false end.

(** Every [QCoreApplication::exit] in the trace [tr] has code [-1] and comes
    right after a call of the closure with no object and the url [u]. *)
Definition exits_follow_failed_load (u : QUrl) (tr : list Event) : Prop :=
  ∀ l1 l2 c,
    tr = l1 ++ EvExit c :: l2 →
    c = -1 ∧ ∃ l0 o, l1 = l0 ++ [EvSlot (ObjectCreatedLambda u) o]
                     ∧ lo_obj o = None ∧ lo_url o = u.

(** ** Sample runs *)

Definition stdout_ok : ostream := mkOstream true true "".
Definition stdout_closed : ostream := mkOstream true false "".
Definition stdout_failed : ostream := mkOstream false true "".

(** A load that succeeds, under a host that ends its loop with [-1]. *)
Definition host_reserved : Host :=
  mkHost 2311 stdout_ok [mkOutcome (Some 1%positive) "qrc:/main.qml"] [] (Some (-1)).

(** A load that fails: one emission, no object, the requested url. *)
Definition host_fail : Host :=
  mkHost 2311 stdout_ok [mkOutcome None "qrc:/main.qml"] [] (Some 0).

(** A failing load announced together with the outcome of an unrelated url. *)
Definition host_spurious : Host :=
  mkHost 2311 stdout_closed
         [mkOutcome None "qrc:/other.qml"; mkOutcome (Some 1%positive) "qrc:/main.qml"]
         [[mkOutcome (Some 2%positive) "qrc:/other.qml"]] (Some 0).

(** A load that fails while the host has more to announce in later turns. *)
Definition host_fail_then_more : Host :=
  mkHost 2311 stdout_ok
         [mkOutcome (Some 3%positive) "qrc:/other.qml"; mkOutcome None "qrc:/main.qml"]
         [[mkOutcome None "qrc:/main.qml"]; [mkOutcome (Some 4%positive) "qrc:/main.qml"]]
         (Some 0).

(** A load that succeeds, and a window closed later. *)
Definition host_success : Host :=
  mkHost 2311 stdout_ok [mkOutcome (Some 1%positive) "qrc:/main.qml"] [] (Some 0).

(** * Properties *)

(** ** The samples run as expected *)

Example to_string_2311 : to_string 2311 = "2311".
Proof. reflexivity. Qed.

Example to_string_neg : to_string (-7) = "-7".
Proof. reflexivity. Qed.

Example main_fail_status : main_status host_fail = Some (-1).
Proof. vm_compute. reflexivity. Qed.

Example main_success_status : main_status host_success = Some 0.
Proof. vm_compute. reflexivity. Qed.

Example main_spurious_status : main_status host_spurious = Some 0.
Proof. vm_compute. reflexivity. Qed.

Example main_spurious_cout :
  cout (main_world host_spurious) = mkOstream false false "".
Proof. vm_compute. reflexivity. Qed.

Example main_success_cout :
  written (cout (main_world host_success)) = "USD Version: 2311" +:+ endl.
Proof. vm_compute. reflexivity. Qed.

Example main_success_context :
  rootContext (main_world host_success) !! "usdVersion" = Some "2311".
Proof. vm_compute. reflexivity. Qed.

(** ** The closure and the dispatcher, field by field *)

Lemma World_eq (w1 w2 : World) :
  pxr_version w1 = pxr_version w2 → cout w1 = cout w2 →
  cout_pending w1 = cout_pending w2 →
  rootContext w1 = rootContext w2 → connections w1 = connections w2 →
  posted w1 = posted w2 → quit_code w1 = quit_code w2 →
  trace w1 = trace w2 → w1 = w2.
Proof. destruct w1, w2; simpl; intros; by subst. Qed.

Lemma fails_spec u o : fails u o = true ↔ lo_obj o = None ∧ lo_url o = u.
Proof.
  unfold fails, QUrl_eqb. destruct o as [[a|] v]; simpl.
  - split; [done | by intros [? _]].
  - rewrite bool_decide_eq_true. split; [by intros <- | by intros [_ ->]].
Qed.

Lemma invoke_eq u o w :
  invoke (ObjectCreatedLambda u) o w =
  mkWorld (pxr_version w) (cout w) (cout_pending w) (rootContext w) (connections w) (posted w)
          (if fails u o then Some (-1) else quit_code w)
          (trace w ++ slot_events u [o]).
Proof.
  unfold invoke, objectCreated_lambda, slot_events, fails. simpl.
  destruct (negb _ && _); apply World_eq; simpl; try done.
  by rewrite <- app_assoc.
Qed.

(** One pass over a queue that holds calls of the closure only. *)
Lemma deliver_eq u os w :
  fold_left (λ w '(s, o), invoke s o w) (map (pair (ObjectCreatedLambda u)) os) w =
  mkWorld (pxr_version w) (cout w) (cout_pending w) (rootContext w) (connections w) (posted w)
          (if existsb (fails u) os then Some (-1) else quit_code w)
          (trace w ++ slot_events u os).
Proof.
  revert w. induction os as [|o os IH]; intros w; cbn [map fold_left].
  - apply World_eq; simpl; try done. by rewrite app_nil_r.
  - rewrite IH, invoke_eq. apply World_eq; simpl; try done.
    + destruct (fails u o); simpl; [|done]. by destruct (existsb _ _).
    + rewrite <- app_assoc. f_equal. unfold slot_events. simpl.
      by rewrite app_nil_r.
Qed.

Lemma sendPostedEvents_eq u os w :
  posted w = map (pair (ObjectCreatedLambda u)) os →
  sendPostedEvents w =
  mkWorld (pxr_version w) (cout w) (cout_pending w) (rootContext w) (connections w) []
          (if existsb (fails u) os then Some (-1) else quit_code w)
          (trace w ++ slot_events u os).
Proof. intros Hp. unfold sendPostedEvents. by rewrite Hp, deliver_eq. Qed.

(** An emission through one queued connection posts the call and does
    nothing else. *)
Lemma emit_queued_eq s o w :
  connections w = [mkConnection s QueuedConnection] →
  emit_objectCreated w o =
  mkWorld (pxr_version w) (cout w) (cout_pending w) (rootContext w) (connections w)
          (posted w ++ [(s, o)]) (quit_code w) (trace w ++ [EvEmit o]).
Proof.
  intros Hc. unfold emit_objectCreated. rewrite Hc. simpl.
  by apply World_eq.
Qed.

Lemma emits_queued_eq s os w :
  connections w = [mkConnection s QueuedConnection] →
  fold_left emit_objectCreated os w =
  mkWorld (pxr_version w) (cout w) (cout_pending w) (rootContext w) (connections w)
          (posted w ++ map (pair s) os) (quit_code w)
          (trace w ++ map EvEmit os).
Proof.
  revert w. induction os as [|o os IH]; intros w Hc; simpl.
  - apply World_eq; simpl; by rewrite ?app_nil_r.
  - rewrite (emit_queued_eq s) by done. rewrite IH by done.
    apply World_eq; simpl; try done; by rewrite <- app_assoc.
Qed.

(** The loop, from a world whose only connection is the queued closure
    and whose queue holds the emissions [os]. *)
Lemma event_loop_eq h u turns os w :
  connections w = [mkConnection (ObjectCreatedLambda u) QueuedConnection] →
  posted w = map (pair (ObjectCreatedLambda u)) os →
  quit_code w = None →
  event_loop h turns w =
  let '(b, es) := loop_events u turns os in
  (if b then Some (-1) else host_exit h,
   mkWorld (pxr_version w) (cout w) (cout_pending w) (rootContext w) (connections w) []
           (if b then Some (-1) else None) (trace w ++ es)).
Proof.
  revert os w. induction turns as [|t turns IH]; intros os w Hc Hp Hq; simpl;
    rewrite (sendPostedEvents_eq u os) by done; simpl; rewrite Hq.
  - by destruct (existsb _ _).
  - destruct (existsb _ _); [done|].
    rewrite (emits_queued_eq (ObjectCreatedLambda u)) by done. simpl.
    rewrite (IH t) by done. simpl.
    destruct (loop_events u turns t) as [b es].
    f_equal. apply World_eq; simpl; try done.
    by rewrite <- !app_assoc.
Qed.

(** The whole run in closed form. *)
Lemma main_eq h :
  main h (init h) =
  let '(b, es) := loop_events url (host_turns h) (host_load h) in
  (if b then Some (-1) else host_exit h,
   mkWorld (host_version h)
           (ostream_flush (diagnostic_line h) (host_cout h))
           (if good (host_cout h) && negb (sink_ok (host_cout h))
            then diagnostic_line h else "")
           {[ "usdVersion" := to_string (host_version h) ]}
           [mkConnection (ObjectCreatedLambda url) QueuedConnection] []
           (if b then Some (-1) else None)
           (startup_events h ++ es)).
Proof.
  destruct h as [v [g k t] ld turns ex].
  unfold main, load_and_run, register_version, version_check, exec, load.
  unfold mbind, M_bind.
  destruct g, k; simpl;
    rewrite (emits_queued_eq (ObjectCreatedLambda url)) by done; simpl;
    rewrite (event_loop_eq _ url _ ld) by done; simpl;
    destruct (loop_events _ _ _) as [b es];
    (f_equal; apply World_eq; simpl; try done;
     unfold startup_events; by rewrite <- !app_assoc).
Qed.

Lemma main_status_eq h :
  main_status h =
  if fst (loop_events url (host_turns h) (host_load h))
  then Some (-1) else host_exit h.
Proof.
  unfold main_status. rewrite main_eq.
  by destruct (loop_events _ _ _).
Qed.

Lemma main_trace_eq h :
  trace (main_world h) =
  startup_events h ++ snd (loop_events url (host_turns h) (host_load h)).
Proof.
  unfold main_world. rewrite main_eq.
  by destruct (loop_events _ _ _).
Qed.

Lemma main_rootContext_eq h :
  rootContext (main_world h) = {[ "usdVersion" := to_string (host_version h) ]}.
Proof.
  unfold main_world. rewrite main_eq.
  by destruct (loop_events _ _ _).
Qed.

Lemma main_cout_eq h :
  cout (main_world h) = ostream_flush (diagnostic_line h) (host_cout h).
Proof.
  unfold main_world. rewrite main_eq.
  by destruct (loop_events _ _ _).
Qed.

(** ** What the loop can and cannot add to the trace *)

Lemma slot_events_elem u os e :
  e ∈ slot_events u os ↔
  ∃ o, o ∈ os ∧
       (e = EvSlot (ObjectCreatedLambda u) o ∨ (e = EvExit (-1) ∧ fails u o = true)).
Proof.
  unfold slot_events. rewrite list_elem_of_In, in_flat_map. split.
  - intros (o & Ho & He). exists o. rewrite list_elem_of_In. split; [done|].
    destruct He as [<-|He]; [by left|]. right.
    destruct (fails u o); simpl in He; [|done].
    destruct He as [<-|[]]. done.
  - intros (o & Ho & He). exists o. rewrite <- list_elem_of_In. split; [done|].
    destruct He as [->|[-> Hf]]; [by left|]. right. rewrite Hf. by left.
Qed.

Lemma existsb_fails u os :
  existsb (fails u) os = true ↔ ∃ o, o ∈ os ∧ fails u o = true.
Proof.
  rewrite existsb_exists. by setoid_rewrite list_elem_of_In.
Qed.

(** Every event of the loop is an emission, a call of the closure or the
    closure's [exit(-1)]. *)
Lemma loop_events_kind u turns os e :
  e ∈ snd (loop_events u turns os) →
  (∃ o, e = EvEmit o) ∨ (∃ o, e = EvSlot (ObjectCreatedLambda u) o) ∨ e = EvExit (-1).
Proof.
  revert os. induction turns as [|t turns IH]; intros os; simpl.
  - destruct (existsb _ _); simpl; rewrite slot_events_elem; naive_solver.
  - destruct (existsb _ _); simpl; [rewrite slot_events_elem; naive_solver|].
    specialize (IH t). destruct (loop_events u turns t) as [b es]. simpl in *.
    rewrite !elem_of_app, slot_events_elem, list_elem_of_fmap. naive_solver.
Qed.

(** The loop ends on the sentinel exactly when the closure was called with
    no object and the captured url. *)
Lemma loop_events_failed u turns os :
  fst (loop_events u turns os) = true ↔
  ∃ o, EvSlot (ObjectCreatedLambda u) o ∈ snd (loop_events u turns os)
       ∧ fails u o = true.
Proof.
  revert os. induction turns as [|t turns IH]; intros os; simpl.
  - destruct (existsb (fails u) os) eqn:He; simpl.
    + split; [intros _|done]. apply existsb_fails in He as (o & Ho & Hf).
      exists o. split; [|done]. apply slot_events_elem. naive_solver.
    + split; [done|]. intros (o & Ho & Hf).
      apply slot_events_elem in Ho as (o' & Ho' & [[= ->]|[[=] _]]).
      assert (existsb (fails u) os = true) by (apply existsb_fails; eauto).
      congruence.
  - destruct (existsb (fails u) os) eqn:He; simpl.
    + split; [intros _|done]. apply existsb_fails in He as (o & Ho & Hf).
      exists o. split; [|done]. apply slot_events_elem. naive_solver.
    + specialize (IH t). destruct (loop_events u turns t) as [b es]. simpl in *.
      rewrite IH. split.
      * intros (o & Ho & Hf). exists o. rewrite !elem_of_app. naive_solver.
      * intros (o & Ho & Hf). exists o. split; [|done].
        rewrite !elem_of_app in Ho. destruct Ho as [Ho|[Ho|Ho]]; [| |done].
        -- apply slot_events_elem in Ho as (o' & Ho' & [[= ->]|[[=] _]]).
           assert (existsb (fails u) os = true) by (apply existsb_fails; eauto).
           congruence.
        -- apply list_elem_of_fmap in Ho as (? & [=] & _).
Qed.

(** Everything in the queue when the loop starts is delivered. *)
Lemma loop_events_delivers u turns os o :
  o ∈ os → EvSlot (ObjectCreatedLambda u) o ∈ snd (loop_events u turns os).
Proof.
  intros Ho.
  assert (EvSlot (ObjectCreatedLambda u) o ∈ slot_events u os)
    by (apply slot_events_elem; eauto).
  destruct turns as [|t turns]; simpl.
  - by destruct (existsb _ _).
  - destruct (existsb _ _); [done|].
    destruct (loop_events u turns t) as [b es]. simpl.
    rewrite elem_of_app. by left.
Qed.

(** ** Where an event sits in a trace *)

(** An event of a kind that occurs once in a trace splits it in one way. *)
Lemma split_unique {A} (p : A → bool) (l1 l2 q r : list A) (x y : A) :
  p x = true →
  Forall (λ e, p e = false) q → Forall (λ e, p e = false) r →
  l1 ++ x :: l2 = q ++ y :: r →
  l1 = q ∧ x = y ∧ l2 = r.
Proof.
  intros Hx Hq Hr. revert q Hq. induction l1 as [|a l1 IH]; intros q Hq Heq.
  - destruct q as [|b q]; simpl in Heq.
    + by injection Heq as -> ->.
    + injection Heq as -> _. apply Forall_cons in Hq as [Hb _]. congruence.
  - destruct q as [|b q]; simpl in Heq.
    + injection Heq as -> <-.
      apply Forall_app in Hr as [_ Hr]. apply Forall_cons in Hr as [Hr _].
      congruence.
    + injection Heq as -> Heq. apply Forall_cons in Hq as [_ Hq].
      destruct (IH q Hq Heq) as (-> & -> & ->). done.
Qed.

Lemma loop_events_not_load_call u turns os :
  Forall (λ e, is_load_call e = false) (snd (loop_events u turns os)).
Proof.
  apply Forall_forall. intros e He.
  apply loop_events_kind in He as [[o ->]|[[o ->]| ->]]; done.
Qed.

Lemma emits_not_load_call os :
  Forall (λ e, is_load_call e = false) (map EvEmit os).
Proof. apply Forall_forall. intros e (o & -> & _)%list_elem_of_fmap. done. Qed.

(** The trace of a run, cut at the call of [engine.load]. *)
Lemma main_trace_load_call h :
  let v := to_string (host_version h) in
  trace (main_world h) =
  [ EvCout "USD Version: "; EvQueryVersion; EvCout v; EvCout endl;
    EvQueryVersion; EvSetContextProperty "usdVersion" v;
    EvConnect (mkConnection (ObjectCreatedLambda url) QueuedConnection) ]
  ++ EvLoadCall url {[ "usdVersion" := v ]}
  :: (map EvEmit (host_load h) ++ [EvLoadReturn url; EvExecCall]
      ++ snd (loop_events url (host_turns h) (host_load h))).
Proof.
  simpl. rewrite main_trace_eq. unfold startup_events.
  simpl. by rewrite <- !app_assoc.
Qed.

Lemma slot_not_in_startup h s o : EvSlot s o ∉ startup_events h.
Proof.
  unfold startup_events. rewrite !elem_of_app, !elem_of_cons, list_elem_of_fmap.
  intros [H|[H|H]].
  - repeat (destruct H as [[=]|H]). by apply elem_of_nil in H.
  - by destruct H as (? & [=] & _).
  - repeat (destruct H as [[=]|H]). by apply elem_of_nil in H.
Qed.

Lemma loop_events_Forall (P : Event → Prop) u turns os :
  (∀ o, P (EvEmit o)) → (∀ s o, P (EvSlot s o)) → P (EvExit (-1)) →
  Forall P (snd (loop_events u turns os)).
Proof.
  intros He Hs Hx. apply Forall_forall. intros e Hin.
  apply loop_events_kind in Hin as [[o ->]|[[o ->]| ->]]; auto.
Qed.

Lemma filter_none {A} (p : A → bool) (l : list A) :
  Forall (λ e, p e = false) l → List.filter p l = [].
Proof.
  induction 1 as [|a l Ha _ IH]; simpl; [done|]. by rewrite Ha.
Qed.

(** The events of [main] that are not emissions or deliveries all lie in
    the straight-line part. *)
Lemma main_trace_filter (p : Event → bool) h :
  (∀ o, p (EvEmit o) = false) → (∀ s o, p (EvSlot s o) = false) →
  p (EvExit (-1)) = false →
  List.filter p (trace (main_world h)) =
  List.filter p
    [ EvCout "USD Version: "; EvQueryVersion;
      EvCout (to_string (host_version h)); EvCout endl;
      EvQueryVersion;
      EvSetContextProperty "usdVersion" (to_string (host_version h));
      EvConnect (mkConnection (ObjectCreatedLambda url) QueuedConnection);
      EvLoadCall url {[ "usdVersion" := to_string (host_version h) ]} ]
  ++ List.filter p [ EvLoadReturn url; EvExecCall ].
Proof.
  intros He Hs Hx. rewrite main_trace_eq. unfold startup_events.
  rewrite !List.filter_app.
  rewrite (filter_none p (map EvEmit _)).
  2:{ apply Forall_forall. intros e (o & -> & _)%list_elem_of_fmap. apply He. }
  rewrite (filter_none p (snd _)) by by apply loop_events_Forall.
  by rewrite app_nil_r.
Qed.

(** ** What the dispatcher and the loop leave alone *)

Lemma fold_left_preserves {A B C} (f : A → B → A) (g : A → C) (l : list B) :
  (∀ a b, g (f a b) = g a) → ∀ a, g (fold_left f l a) = g a.
Proof.
  intros Hf. induction l as [|b l IH]; intros a; simpl; [done|].
  by rewrite IH.
Qed.

Lemma invoke_static s o w : static (invoke s o w) = static w.
Proof. destruct s as [u]. by rewrite invoke_eq. Qed.

Lemma emit_objectCreated_static w o : static (emit_objectCreated w o) = static w.
Proof.
  unfold emit_objectCreated.
  rewrite (fold_left_preserves (activate o) static); [done|].
  intros a c. unfold activate.
  destruct (conn_type c); try apply invoke_static; done.
Qed.

Lemma sendPostedEvents_static w : static (sendPostedEvents w) = static w.
Proof.
  unfold sendPostedEvents.
  rewrite (fold_left_preserves _ static); [done|].
  intros a [s o]. apply invoke_static.
Qed.

Lemma event_loop_static h turns w :
  static (snd (event_loop h turns w)) = static w.
Proof.
  revert w. induction turns as [|t turns IH]; intros w; simpl.
  - destruct (quit_code _); simpl; apply sendPostedEvents_static.
  - destruct (quit_code _); simpl; [apply sendPostedEvents_static|].
    rewrite IH, (fold_left_preserves emit_objectCreated static).
    + apply sendPostedEvents_static.
    + apply emit_objectCreated_static.
Qed.

Lemma load_static h u w : static (snd (load h u w)) = static w.
Proof.
  unfold load. simpl.
  change (static (fold_left emit_objectCreated (host_load h)
                    (log (EvLoadCall u (rootContext w)) w)) = static w).
  rewrite (fold_left_preserves emit_objectCreated static); [done|].
  apply emit_objectCreated_static.
Qed.

Lemma exec_static h w : static (snd (exec h w)) = static w.
Proof. unfold exec. by rewrite event_loop_static. Qed.

Lemma static_rootContext w1 w2 :
  static w1 = static w2 → rootContext w1 = rootContext w2.
Proof. by intros [= _ _ ? _]. Qed.

(** Connecting, loading and running the loop write neither the version
    nor the stream nor the context, from whatever world they start. *)
Lemma load_and_run_frame h w :
  pxr_version (snd (load_and_run h w)) = pxr_version w
  ∧ cout (snd (load_and_run h w)) = cout w
  ∧ rootContext (snd (load_and_run h w)) = rootContext w.
Proof.
  unfold load_and_run, mbind, M_bind, connect.
  destruct (load h url _) as [[] w2] eqn:Hl.
  pose proof (load_static h url
    (log (EvConnect (mkConnection (ObjectCreatedLambda url) QueuedConnection))
       (set_connections
          (λ cs, cs ++ [mkConnection (ObjectCreatedLambda url) QueuedConnection])
          w))) as H2.
  rewrite Hl in H2. simpl in H2.
  pose proof (exec_static h w2) as H3. rewrite H2 in H3.
  by injection H3 as -> -> -> _.
Qed.

(** ** The decimal text of a version *)

Lemma pretty_N_go_nonempty (x : N) (s : string) :
  s ≠ "" → pretty_N_go x s ≠ "".
Proof.
  revert s. induction (N.lt_wf_0 x) as [x _ IH]; intros s Hs.
  destruct (decide (x = 0)%N) as [->|Hx].
  - by rewrite pretty_N_go_0.
  - rewrite pretty_N_go_step by lia. apply IH; [|done].
    apply N.div_lt; lia.
Qed.

Lemma pretty_positive_nonempty (p : positive) : pretty (Npos p) ≠ "".
Proof.
  unfold pretty, pretty_N. rewrite decide_False by done.
  rewrite pretty_N_go_step by lia. by apply pretty_N_go_nonempty.
Qed.

Lemma to_string_nonempty (n : Z) : to_string n ≠ "".
Proof.
  unfold to_string, pretty, pretty_Z. destruct n as [|p|p]; [done| |done].
  apply pretty_positive_nonempty.
Qed.

(** ** Emissions for other urls *)

Lemma existsb_fails_for_url u os :
  existsb (fails u) (List.filter (for_url u) os) = existsb (fails u) os.
Proof.
  induction os as [|o os IH]; simpl; [done|].
  unfold for_url at 1. unfold fails at 2.
  destruct (QUrl_eqb u (lo_url o)) eqn:E; simpl.
  - rewrite IH. unfold fails at 1. by rewrite E.
  - by rewrite andb_false_r.
Qed.

Lemma loop_events_for_url u turns os :
  fst (loop_events u (map (List.filter (for_url u)) turns)
         (List.filter (for_url u) os))
  = fst (loop_events u turns os).
Proof.
  revert os. induction turns as [|t turns IH]; intros os; simpl;
    rewrite existsb_fails_for_url; destruct (existsb _ _); try done.
  specialize (IH t).
  destruct (loop_events u turns t), (loop_events u _ _). done.
Qed.

(** ** The stream and the signal *)

Lemma string_app_assoc (a b c : string) : (a +:+ b) +:+ c = a +:+ (b +:+ c).
Proof.
  induction a as [|x a IH]; [done|].
  change (String x ((a +:+ b) +:+ c) = String x (a +:+ (b +:+ c))).
  by rewrite IH.
Qed.

(** Without a write into a pipe whose reader is gone, the process runs as
    [main] does. *)
Lemma main_process_returns (reader_gone : bool) (h : Host) (w : World) :
  reader_gone && good (cout w) = false →
  main_process reader_gone h w = Ran (fst (main h w)) (snd (main h w)).
Proof.
  destruct w as [v [g k t] pd ctx cs ps q tr]. simpl. intros Hrg.
  unfold main_process, main, version_check, register_version, cout_endl_fd,
    cout_endl, lift.
  unfold mbind, P_bind, M_bind.
  destruct reader_gone, g; simplify_eq/=;
    by destruct (load_and_run h _).
Qed.

(** With one, the process ends inside [std::endl]: the line has been
    inserted, nothing has reached the device, the context has no property
    and [engine.load] has not been called. *)
Lemma broken_pipe_ends_before_publish (h : Host) (c : ostream) :
  good c = true →
  let o := main_process true (with_cout c h) (init (with_cout c h)) in
  killed_by o = Some SIGPIPE
  ∧ trace (outcome_world o)
    = [ EvCout "USD Version: "; EvQueryVersion;
        EvCout (to_string (host_version h)); EvCout endl ]
  ∧ rootContext (outcome_world o) = ∅
  ∧ cout (outcome_world o) = c.
Proof.
  destruct c as [g k t]. simpl. intros ->.
  unfold main_process, cout_endl_fd, lift, mbind, P_bind. simpl. done.
Qed.

(** ** The claims *)

(** C1, as the code has it.  The process ends with the status [-1]
    exactly when the connected closure has been called with no object and
    the requested url, or the host's loop itself ends with [-1]: [main]
    returns whatever [app.exec()] returns.  An emission of the load with no
    object and the requested url is always delivered and makes the status
    [-1].  Called with no object and the requested url the closure calls
    [QCoreApplication::exit(-1)]; called with an object it does nothing at
    all, whatever the url. *)
Theorem sentinel_iff_failed_load (h : Host) :
  (main_status h = Some (-1) ↔
     (∃ o, EvSlot (ObjectCreatedLambda url) o ∈ trace (main_world h)
           ∧ lo_obj o = None ∧ lo_url o = url)
     ∨ host_exit h = Some (-1))
  ∧ (∀ o, o ∈ host_load h → lo_obj o = None → lo_url o = url →
          EvSlot (ObjectCreatedLambda url) o ∈ trace (main_world h)
          ∧ main_status h = Some (-1))
  ∧ (∀ w, objectCreated_lambda url None url w = QCoreApplication_exit (-1) w)
  ∧ (∀ a objUrl w, objectCreated_lambda url (Some a) objUrl w = w).
Proof.
  assert ((∃ o, EvSlot (ObjectCreatedLambda url) o ∈ trace (main_world h)
                ∧ lo_obj o = None ∧ lo_url o = url)
          ↔ fst (loop_events url (host_turns h) (host_load h)) = true) as Hdel.
  { rewrite loop_events_failed, main_trace_eq.
    setoid_rewrite elem_of_app. setoid_rewrite <- fails_spec.
    split; intros (o & Ho & Hf); exists o; split; auto.
    destruct Ho as [Ho|Ho]; [|done]. by apply slot_not_in_startup in Ho. }
  split; [|split; [|split]].
  - rewrite Hdel, main_status_eq.
    destruct (fst (loop_events url (host_turns h) (host_load h))).
    + split; auto.
    + split; [auto|]. by intros [?|?].
  - intros o Ho Hn Hu.
    assert (EvSlot (ObjectCreatedLambda url) o ∈ trace (main_world h)) as Hin.
    { rewrite main_trace_eq, elem_of_app. right. by apply loop_events_delivers. }
    split; [done|].
    rewrite main_status_eq. destruct Hdel as [Hdel _].
    rewrite Hdel; [done|]. eauto.
  - done.
  - done.
Qed.

(** C1 as stated fails: the load succeeds, the closure is called with an
    object only and never calls [QCoreApplication::exit], and [main] still
    returns [-1], the code the host's loop ends with. *)
Lemma sentinel_without_failed_load :
  main_status host_reserved = Some (-1)
  ∧ List.filter is_slot (trace (main_world host_reserved))
    = [EvSlot (ObjectCreatedLambda url) (mkOutcome (Some 1%positive) "qrc:/main.qml")]
  ∧ List.filter is_exit (trace (main_world host_reserved)) = []
  ∧ ¬ (main_status host_reserved = Some (-1) ↔
       ∃ o, EvSlot (ObjectCreatedLambda url) o ∈ trace (main_world host_reserved)
            ∧ lo_obj o = None ∧ lo_url o = url).
Proof.
  split; [by vm_compute|]. split; [by vm_compute|]. split; [by vm_compute|].
  intros [Hiff _]. destruct Hiff as (o & Ho & Hn & Hu); [by vm_compute|].
  rewrite main_trace_eq, elem_of_app in Ho. destruct Ho as [Ho|Ho].
  - by apply slot_not_in_startup in Ho.
  - assert (fst (loop_events url (host_turns host_reserved)
                   (host_load host_reserved)) = true) as Hfst.
    { apply loop_events_failed. exists o. split; [done|]. by apply fails_spec. }
    vm_compute in Hfst. discriminate.
Qed.

(** C2.  In every run the context property ["usdVersion"], holding the
    formatted version, is set before [engine.load] is called: the write
    precedes the call in the trace, and wherever the trace shows a call of
    [engine.load], the write lies before it and the context the engine
    reads holds the formatted version under that key. *)
Theorem publish_before_load (h : Host) :
  let publish := EvSetContextProperty "usdVersion" (to_string (host_version h)) in
  (∃ ctx, before publish (EvLoadCall url ctx) (trace (main_world h)))
  ∧ (∀ l1 l2 u ctx,
       trace (main_world h) = l1 ++ EvLoadCall u ctx :: l2 →
       publish ∈ l1 ∧ u = url
       ∧ ctx !! "usdVersion" = Some (to_string (host_version h))).
Proof.
  simpl. rewrite main_trace_load_call. split.
  - eexists. unfold before.
    exists [EvCout "USD Version: "; EvQueryVersion;
            EvCout (to_string (host_version h)); EvCout endl; EvQueryVersion].
    eexists [_]. eexists. simpl. reflexivity.
  - intros l1 l2 u ctx Heq. symmetry in Heq.
    apply (split_unique is_load_call) in Heq as (Hl & [= -> ->] & _); try done.
    + subst l1. split; [|split; [done|]].
      * rewrite !elem_of_cons. tauto.
      * apply lookup_singleton_eq.
    + repeat constructor.
    + apply Forall_app. split; [apply emits_not_load_call|].
      apply Forall_cons. split; [done|]. apply Forall_cons. split; [done|].
      apply loop_events_not_load_call.
Qed.

(** C3.  Called with a url other than the captured one, the closure leaves
    the world as it found it, with or without an object: no exit is asked
    for, nothing is written, and the dispatcher's call adds only the record
    of the call itself to the trace.  A run ends with the same status, the
    same pending exit, the same version, stream, context and connections
    when the emissions for other urls are taken out of it. *)
Theorem mismatched_callback_ignored (u objUrl : QUrl) (obj : QObjectPtr)
    (w : World) (h : Host) :
  objUrl ≠ u →
  objectCreated_lambda u obj objUrl w = w
  ∧ invoke (ObjectCreatedLambda u) (mkOutcome obj objUrl) w
    = log (EvSlot (ObjectCreatedLambda u) (mkOutcome obj objUrl)) w
  ∧ main_status (without_mismatched h) = main_status h
  ∧ quit_code (main_world (without_mismatched h)) = quit_code (main_world h)
  ∧ static (main_world (without_mismatched h)) = static (main_world h).
Proof.
  intros Hne.
  assert (∀ w', objectCreated_lambda u obj objUrl w' = w') as Hid.
  { intros w'. unfold objectCreated_lambda, QUrl_eqb.
    rewrite (bool_decide_eq_false_2 (u = objUrl)) by congruence.
    by rewrite andb_false_r. }
  split; [apply Hid|]. split; [simpl; apply Hid|].
  pose proof (loop_events_for_url url (host_turns h) (host_load h)) as HL.
  rewrite !main_status_eq. unfold main_world. rewrite !main_eq. simpl.
  destruct (loop_events url (host_turns h) (host_load h)) as [b es].
  destruct (loop_events url _ _) as [b' es']. simpl in HL. by subst b'.
Qed.

(** An unrelated url arrives with no object; the run of [host_spurious]
    carries two emissions for that url. *)
Lemma mismatched_callback_ignored_witness :
  objectCreated_lambda url None "qrc:/other.qml" (init host_spurious)
    = init host_spurious
  ∧ invoke (ObjectCreatedLambda url) (mkOutcome None "qrc:/other.qml")
      (init host_spurious)
    = log (EvSlot (ObjectCreatedLambda url) (mkOutcome None "qrc:/other.qml"))
        (init host_spurious)
  ∧ main_status (without_mismatched host_spurious) = main_status host_spurious
  ∧ quit_code (main_world (without_mismatched host_spurious))
    = quit_code (main_world host_spurious)
  ∧ static (main_world (without_mismatched host_spurious))
    = static (main_world host_spurious).
Proof.
  apply (mismatched_callback_ignored url "qrc:/other.qml" None
           (init host_spurious) host_spurious).
  unfold url. discriminate.
Defined.

(** C4, as the code has it.  [pxr::UsdGetVersion] is called twice in every
    run, once for the line on [std::cout] and once for the context
    property; each call is a read that returns the linked build's version
    and changes nothing, the version is the same at the end of the run as
    at its start (and [main] leaves it alone from any world), and the
    context property holds the decimal text of that version. *)
Theorem version_queried_twice (h : Host) :
  count_events is_query (trace (main_world h)) = 2%nat
  ∧ (∀ w, fst (UsdGetVersion w) = pxr_version w
          ∧ static (snd (UsdGetVersion w)) = static w)
  ∧ pxr_version (main_world h) = host_version h
  ∧ (∀ w, pxr_version (snd (main h w)) = pxr_version w)
  ∧ rootContext (main_world h) !! "usdVersion"
    = Some (to_string (host_version h)).
Proof.
  split; [|split; [|split; [|split]]].
  - unfold count_events. by rewrite main_trace_filter.
  - done.
  - unfold main_world. rewrite main_eq. by destruct (loop_events _ _ _).
  - intros [v [g k t] pd ctx cs ps q tr].
    unfold main. unfold mbind at 1 2 3 4, M_bind.
    destruct g; simpl; by rewrite (proj1 (load_and_run_frame h _)).
  - rewrite main_rootContext_eq. apply lookup_singleton_eq.
Qed.

(** C4 as stated fails: in the run with a successful load the version is
    queried twice, not once. *)
Lemma version_queried_once_fails :
  count_events is_query (trace (main_world host_success)) = 2%nat
  ∧ count_events is_query (trace (main_world host_success)) ≠ 1%nat.
Proof. vm_compute. split; [reflexivity | discriminate]. Qed.

(** C5.  Two calls of the version query in a row give the same number and
    the same formatted text, from any world. *)
Theorem queryVersion_idempotent (w : World) :
  fst (UsdGetVersion (snd (UsdGetVersion w))) = fst (UsdGetVersion w)
  ∧ to_string (fst (UsdGetVersion (snd (UsdGetVersion w))))
    = to_string (fst (UsdGetVersion w)).
Proof. done. Qed.

(** C6.  Whatever build is linked, the formatted version is not the empty
    string, and after any number of earlier queries in the same process
    the query still formats to the text of that build's version. *)
Theorem queryVersion_token_nonempty_stable (w : World) (n : nat) :
  to_string (fst (UsdGetVersion w)) ≠ ""
  ∧ to_string (fst (UsdGetVersion (Nat.iter n (λ w', snd (UsdGetVersion w')) w)))
    = to_string (pxr_version w).
Proof.
  split; [apply to_string_nonempty|].
  f_equal. simpl. induction n as [|n IH]; [done|]. simpl. apply IH.
Qed.

(** C7.  The root context is written once in a run, by
    [setContextProperty] with the key ["usdVersion"] and the formatted
    version; the write comes before the call of [engine.load], which reads
    a context holding that one entry; at the end of the run the context
    still holds exactly that entry; and connecting, loading and running
    the loop leave the context of any world as it was, [engine.load] on
    its own included. *)
Theorem context_written_once (h : Host) :
  let v := to_string (host_version h) in
  List.filter is_context_write (trace (main_world h))
    = [EvSetContextProperty "usdVersion" v]
  ∧ count_events is_context_write (trace (main_world h)) = 1%nat
  ∧ before (EvSetContextProperty "usdVersion" v)
           (EvLoadCall url {[ "usdVersion" := v ]}) (trace (main_world h))
  ∧ List.filter is_load_call (trace (main_world h))
    = [EvLoadCall url {[ "usdVersion" := v ]}]
  ∧ rootContext (main_world h) = {[ "usdVersion" := v ]}
  ∧ (∀ w, rootContext (snd (load_and_run h w)) = rootContext w)
  ∧ (∀ w u, rootContext (snd (load h u w)) = rootContext w).
Proof.
  simpl. repeat split.
  - by rewrite main_trace_filter.
  - unfold count_events. by rewrite main_trace_filter.
  - rewrite main_trace_load_call.
    exists [EvCout "USD Version: "; EvQueryVersion;
            EvCout (to_string (host_version h)); EvCout endl; EvQueryVersion].
    eexists [_]. eexists. simpl. reflexivity.
  - by rewrite main_trace_filter.
  - apply main_rootContext_eq.
  - intros w. apply load_and_run_frame.
  - intros w u. apply static_rootContext, load_static.
Qed.

(** C8.  The closure is connected with [Qt::QueuedConnection], and in
    every run nothing is delivered to it before [engine.load] has
    returned and [app.exec()] has been entered: the trace is the
    straight-line part up to the call of [engine.load], the emissions made
    inside the call, its return, the entry of the loop, and only then the
    deliveries, among them one for every emission made inside the call. *)
Theorem callback_delivery_queued (h : Host) :
  connections (main_world h)
    = [mkConnection (ObjectCreatedLambda url) QueuedConnection]
  ∧ ∃ pre ctx post,
      trace (main_world h)
        = pre ++ EvLoadCall url ctx :: map EvEmit (host_load h)
              ++ EvLoadReturn url :: EvExecCall :: post
      ∧ count_events is_slot pre = 0%nat
      ∧ count_events is_slot (map EvEmit (host_load h)) = 0%nat
      ∧ count_events is_load_call post = 0%nat
      ∧ ∀ o, o ∈ host_load h → EvSlot (ObjectCreatedLambda url) o ∈ post.
Proof.
  split.
  - unfold main_world. rewrite main_eq. by destruct (loop_events _ _ _).
  - do 3 eexists. split; [apply main_trace_load_call|].
    unfold count_events. split; [done|]. split; [|split].
    + rewrite filter_none; [done|].
      apply Forall_forall. by intros e (o & -> & _)%list_elem_of_fmap.
    + rewrite filter_none; [done|]. by apply loop_events_Forall.
    + intros o Ho. by apply loop_events_delivers.
Qed.

(** The dispatcher tells the kinds of connection apart: through a direct
    connection the closure runs inside the emission. *)
Remark direct_connection_runs_inline (s : Slot) (o : LoadOutcome) (w : World) :
  connections w = [mkConnection s DirectConnection] →
  ∃ rest, trace (emit_objectCreated w o) = trace w ++ EvEmit o :: EvSlot s o :: rest.
Proof.
  intros Hc. unfold emit_objectCreated. rewrite Hc. simpl.
  unfold activate. simpl. destruct s as [u]. rewrite invoke_eq. simpl.
  eexists. rewrite <- app_assoc. simpl. reflexivity.
Qed.

(** C9, as the code has it.  Whenever the flush of [std::endl] does not
    write into a pipe whose reader is gone (the stream is not good, so no
    write is attempted, or the write returns, with the bytes taken or with
    an error), the process runs to the end of [main] and the run is the
    same apart from the stream: the same status, the same trace (so the
    write of the context property and the call of [engine.load] are
    reached), the same context, the same world once the stream is masked.
    On a stream that is not good, or whose device refuses the bytes,
    nothing is written and the run goes on all the same. *)
Theorem diagnostic_best_effort (h : Host) (c : ostream) (reader_gone : bool) :
  reader_gone && good c = false →
  main_process reader_gone (with_cout c h) (init (with_cout c h))
    = Ran (main_status (with_cout c h)) (main_world (with_cout c h))
  ∧ main_status (with_cout c h) = main_status h
  ∧ trace (main_world (with_cout c h)) = trace (main_world h)
  ∧ rootContext (main_world (with_cout c h)) = rootContext (main_world h)
  ∧ (∀ c0 p0,
       set_cout_pending (λ _, p0) (set_cout (λ _, c0) (main_world (with_cout c h)))
       = set_cout_pending (λ _, p0) (set_cout (λ _, c0) (main_world h)))
  ∧ EvSetContextProperty "usdVersion" (to_string (host_version h))
      ∈ trace (main_world (with_cout c h))
  ∧ EvLoadCall url {[ "usdVersion" := to_string (host_version h) ]}
      ∈ trace (main_world (with_cout c h))
  ∧ (good c && sink_ok c = false →
     written (cout (main_world (with_cout c h))) = written c
     ∧ good (cout (main_world (with_cout c h))) = false).
Proof.
  intros Hrg. split; [|split; [|split; [|split; [|split; [|split; [|split]]]]]].
  - by apply main_process_returns.
  - by rewrite !main_status_eq.
  - by rewrite !main_trace_eq.
  - by rewrite !main_rootContext_eq.
  - intros c0 p0. unfold main_world. rewrite !main_eq. simpl.
    by destruct (loop_events _ _ _).
  - rewrite main_trace_load_call. simpl. rewrite !elem_of_cons. tauto.
  - rewrite main_trace_load_call. simpl. rewrite !elem_of_cons. tauto.
  - rewrite main_cout_eq. simpl. unfold ostream_flush.
    destruct c as [[] [] t]; simpl; done.
Qed.

(** The reader of the pipe is gone, but the stream had failed before
    [main] and attempts no write. *)
Lemma diagnostic_best_effort_witness :
  main_process true (with_cout stdout_failed host_fail)
      (init (with_cout stdout_failed host_fail))
    = Ran (main_status (with_cout stdout_failed host_fail))
          (main_world (with_cout stdout_failed host_fail))
  ∧ main_status (with_cout stdout_failed host_fail) = main_status host_fail
  ∧ trace (main_world (with_cout stdout_failed host_fail))
    = trace (main_world host_fail)
  ∧ rootContext (main_world (with_cout stdout_failed host_fail))
    = rootContext (main_world host_fail)
  ∧ (∀ c0 p0,
       set_cout_pending (λ _, p0)
         (set_cout (λ _, c0) (main_world (with_cout stdout_failed host_fail)))
       = set_cout_pending (λ _, p0) (set_cout (λ _, c0) (main_world host_fail)))
  ∧ EvSetContextProperty "usdVersion" (to_string (host_version host_fail))
      ∈ trace (main_world (with_cout stdout_failed host_fail))
  ∧ EvLoadCall url {[ "usdVersion" := to_string (host_version host_fail) ]}
      ∈ trace (main_world (with_cout stdout_failed host_fail))
  ∧ (good stdout_failed && sink_ok stdout_failed = false →
     written (cout (main_world (with_cout stdout_failed host_fail)))
     = written stdout_failed
     ∧ good (cout (main_world (with_cout stdout_failed host_fail))) = false).
Proof. apply (diagnostic_best_effort host_fail stdout_failed true). reflexivity. Defined.

(** C9 as stated fails: with standard output a pipe whose reader is gone
    and the stream good, the process is ended by SIGPIPE inside
    [std::endl]; the context property is never written and [engine.load]
    never called, where the same host with a working stream reaches both
    and returns 0. *)
Lemma diagnostic_aborts_on_broken_pipe :
  killed_by (main_process true host_success (init host_success)) = Some SIGPIPE
  ∧ List.filter is_context_write
      (trace (outcome_world (main_process true host_success (init host_success))))
    = []
  ∧ List.filter is_load_call
      (trace (outcome_world (main_process true host_success (init host_success))))
    = []
  ∧ rootContext (outcome_world (main_process true host_success (init host_success)))
      !! "usdVersion" = None
  ∧ main_process false host_success (init host_success)
    = Ran (Some 0) (main_world host_success)
  ∧ rootContext (main_world host_success) !! "usdVersion" = Some "2311".
Proof.
  split; [by vm_compute|]. split; [by vm_compute|]. split; [by vm_compute|].
  split; [by vm_compute|]. split; [|by vm_compute].
  unfold main_world. rewrite main_process_returns by reflexivity.
  apply (f_equal (λ a, Ran a _)). by vm_compute.
Qed.

(** C10.  In every run the number inserted into [std::cout] and the value
    of the context property are the same text, the decimal form of the
    linked build's version; on a working stream that text is what reaches
    the device, between the label and the newline. *)
Theorem diagnostic_and_binding_agree (h : Host) :
  ∃ tok,
    tok = to_string (host_version h)
    ∧ List.filter is_cout (trace (main_world h))
      = [EvCout "USD Version: "; EvCout tok; EvCout endl]
    ∧ List.filter is_context_write (trace (main_world h))
      = [EvSetContextProperty "usdVersion" tok]
    ∧ rootContext (main_world h) !! "usdVersion" = Some tok
    ∧ (good (host_cout h) && sink_ok (host_cout h) = true →
       written (cout (main_world h))
       = ((written (host_cout h) +:+ "USD Version: ") +:+ tok) +:+ endl).
Proof.
  exists (to_string (host_version h)). split; [done|].
  split; [|split; [|split]].
  - by rewrite main_trace_filter.
  - by rewrite main_trace_filter.
  - rewrite main_rootContext_eq. apply lookup_singleton_eq.
  - rewrite main_cout_eq. unfold ostream_flush, diagnostic_line.
    destruct (host_cout h) as [[] [] t]; simpl; try done.
    intros _. by rewrite !string_app_assoc.
Qed.

(** * Further properties of [main] *)

(** ** The loop in terms of what the host announces *)

Lemma loop_events_status u turns os :
  fst (loop_events u turns os) = existsb (fails u) (os ++ concat turns).
Proof.
  revert os. induction turns as [|t turns IH]; intros os; simpl.
  - rewrite app_nil_r. by destruct (existsb _ _).
  - rewrite existsb_app. destruct (existsb (fails u) os); simpl; [done|].
    specialize (IH t). destruct (loop_events u turns t) as [b es].
    simpl in IH. by rewrite IH.
Qed.

Lemma slot_events_cons u o os :
  slot_events u (o :: os)
  = (EvSlot (ObjectCreatedLambda u) o :: if fails u o then [EvExit (-1)] else [])
    ++ slot_events u os.
Proof. done. Qed.

Lemma slot_events_slots u os :
  List.filter is_slot (slot_events u os) = map (EvSlot (ObjectCreatedLambda u)) os.
Proof.
  induction os as [|o os IH]; [done|].
  rewrite slot_events_cons, List.filter_app, IH.
  by destruct (fails u o).
Qed.

Lemma slot_events_emits u os : List.filter is_emit (slot_events u os) = [].
Proof.
  induction os as [|o os IH]; [done|].
  rewrite slot_events_cons, List.filter_app, IH.
  by destruct (fails u o).
Qed.

Lemma emits_slots os : List.filter is_slot (map EvEmit os) = [].
Proof. by induction os. Qed.

Lemma emits_emits os : List.filter is_emit (map EvEmit os) = map EvEmit os.
Proof. induction os as [|o os IH]; simpl; [done|]. by rewrite IH. Qed.

(** The emissions the loop gets to are a prefix [d] of those the host has
    for the later turns; they and the queue the loop started with are
    delivered in order, once each. *)
Lemma loop_events_reach u turns os :
  ∃ d, d `prefix_of` concat turns
    ∧ List.filter is_slot (snd (loop_events u turns os))
      = map (EvSlot (ObjectCreatedLambda u)) (os ++ d)
    ∧ List.filter is_emit (snd (loop_events u turns os)) = map EvEmit d
    ∧ (existsb (fails u) os = true → d = [])
    ∧ (existsb (fails u) (os ++ concat turns) = false → d = concat turns).
Proof.
  revert os. induction turns as [|t turns IH]; intros os; simpl.
  - exists []. rewrite !app_nil_r.
    destruct (existsb _ _); simpl;
      rewrite slot_events_slots, slot_events_emits; by auto using prefix_nil.
  - destruct (existsb (fails u) os) eqn:E; simpl.
    + exists []. rewrite app_nil_r, slot_events_slots, slot_events_emits.
      repeat split; auto using prefix_nil.
      rewrite existsb_app, E. done.
    + destruct (IH t) as (d & Hd & Hs & He & _ & Hall).
      destruct (loop_events u turns t) as [b es]. simpl in *.
      exists (t ++ d). rewrite !List.filter_app.
      rewrite slot_events_slots, slot_events_emits, emits_slots, emits_emits.
      rewrite Hs, He. repeat split.
      * by apply prefix_app.
      * by rewrite !map_app.
      * by rewrite map_app.
      * done.
      * rewrite existsb_app, E. simpl. intros H. by rewrite (Hall H).
Qed.

Lemma startup_events_slots h : List.filter is_slot (startup_events h) = [].
Proof.
  unfold startup_events. rewrite !List.filter_app, emits_slots. done.
Qed.

Lemma startup_events_emits h :
  List.filter is_emit (startup_events h) = map EvEmit (host_load h).
Proof.
  unfold startup_events. rewrite !List.filter_app, emits_emits. simpl.
  by rewrite app_nil_r.
Qed.

(** What is emitted and what is delivered in a run. *)
Lemma main_reach h :
  ∃ d, d `prefix_of` concat (host_turns h)
    ∧ List.filter is_emit (trace (main_world h)) = map EvEmit (host_load h ++ d)
    ∧ List.filter is_slot (trace (main_world h))
      = map (EvSlot (ObjectCreatedLambda url)) (host_load h ++ d)
    ∧ (existsb (fails url) (host_load h) = true → d = [])
    ∧ (existsb (fails url) (host_load h ++ concat (host_turns h)) = false →
       d = concat (host_turns h)).
Proof.
  destruct (loop_events_reach url (host_turns h) (host_load h))
    as (d & Hd & Hs & He & Hnil & Hall).
  exists d. rewrite main_trace_eq, !List.filter_app.
  rewrite startup_events_slots, startup_events_emits, Hs, He.
  repeat split; try done. by rewrite map_app.
Qed.

(** ** Where the exits come from *)

Lemma no_exit_exits_follow u tr :
  Forall (λ e, is_exit e = false) tr → exits_follow_failed_load u tr.
Proof.
  intros Hall l1 l2 c ->. apply Forall_app in Hall as [_ Hall].
  by apply Forall_cons in Hall as [? _].
Qed.

Lemma exits_follow_app u a b :
  exits_follow_failed_load u a → exits_follow_failed_load u b →
  exits_follow_failed_load u (a ++ b).
Proof.
  intros Ha Hb l1 l2 c Heq.
  apply app_eq_inv in Heq as [(k & -> & Hk)|(k & -> & ->)].
  - destruct k as [|e k]; simpl in Hk.
    + destruct (Hb [] l2 c) as (_ & l0 & o & Hnil & _); [by rewrite <- Hk|].
      by destruct l0.
    + injection Hk as <- ->. by apply (Ha l1 k c).
  - destruct (Hb k l2 c eq_refl) as (-> & l0 & o & -> & Ho).
    split; [done|]. exists (a ++ l0), o. by rewrite <- app_assoc.
Qed.

Lemma slot_events_exits_follow u os : exits_follow_failed_load u (slot_events u os).
Proof.
  induction os as [|o os IH].
  - by apply no_exit_exits_follow.
  - rewrite slot_events_cons. apply exits_follow_app; [|done].
    destruct (fails u o) eqn:Hf; [|by apply no_exit_exits_follow; repeat constructor].
    apply fails_spec in Hf. intros l1 l2 c Heq.
    destruct l1 as [|e1 [|e2 l1]]; simplify_eq/=.
    + split; [done|]. by exists [], o.
    + by destruct l1.
Qed.

Lemma loop_events_exits_follow u turns os :
  exits_follow_failed_load u (snd (loop_events u turns os)).
Proof.
  revert os. induction turns as [|t turns IH]; intros os; simpl.
  - destruct (existsb _ _); apply slot_events_exits_follow.
  - destruct (existsb _ _); [apply slot_events_exits_follow|].
    specialize (IH t). destruct (loop_events u turns t) as [b es]. simpl in *.
    apply exits_follow_app; [apply slot_events_exits_follow|].
    apply exits_follow_app; [|done].
    apply no_exit_exits_follow, Forall_forall.
    by intros e (o & -> & _)%list_elem_of_fmap.
Qed.

Lemma startup_events_no_exit h :
  Forall (λ e, is_exit e = false) (startup_events h).
Proof.
  unfold startup_events. rewrite !Forall_app. repeat split.
  - repeat constructor.
  - apply Forall_forall. by intros e (o & -> & _)%list_elem_of_fmap.
  - repeat constructor.
Qed.

Lemma loop_events_exit_in u turns os c :
  EvExit c ∈ snd (loop_events u turns os) → fst (loop_events u turns os) = true.
Proof.
  assert (∀ os', EvExit c ∈ slot_events u os' → existsb (fails u) os' = true)
    as Hslot.
  { intros os' (o & Ho & [[=]|[_ Hf]])%slot_events_elem.
    apply existsb_fails. eauto. }
  revert os. induction turns as [|t turns IH]; intros os; simpl.
  - destruct (existsb (fails u) os) eqn:E; simpl; [done|].
    intros H. apply Hslot in H. congruence.
  - destruct (existsb (fails u) os) eqn:E; simpl; [done|].
    specialize (IH t). destruct (loop_events u turns t) as [b es]. simpl in *.
    rewrite !elem_of_app. intros [H|[H|H]]; [| |by apply IH].
    + apply Hslot in H. congruence.
    + by apply list_elem_of_fmap in H as (? & [=] & _).
Qed.

(** ** The extras *)

(** X1.  What [main] returns is decided by what the host announces for the
    requested url: [-1] when some emission, inside [engine.load] or in any
    later turn of the loop, carries no object and the url [qrc:/main.qml];
    otherwise whatever [app.exec()] returns on the host's own account
    ([return app.exec()] passes it on unchanged). *)
Theorem main_status_by_announcements (h : Host) :
  main_status h =
  if existsb (fails url) (host_load h ++ concat (host_turns h))
  then Some (-1) else host_exit h.
Proof. by rewrite main_status_eq, loop_events_status. Qed.

(** X2.  When an emission made inside [engine.load] carries no object and
    the requested url, [main] returns [-1] and the loop ends with its first
    turn: every emission of the load is still delivered, in order, and
    nothing the host had for later turns is emitted or delivered. *)
Theorem failed_load_stops_first_turn (h : Host) :
  existsb (fails url) (host_load h) = true →
  main_status h = Some (-1)
  ∧ List.filter is_emit (trace (main_world h)) = map EvEmit (host_load h)
  ∧ List.filter is_slot (trace (main_world h))
    = map (EvSlot (ObjectCreatedLambda url)) (host_load h).
Proof.
  intros Hf. split.
  - rewrite main_status_eq, loop_events_status, existsb_app, Hf. done.
  - destruct (main_reach h) as (d & _ & He & Hs & Hnil & _).
    rewrite He, Hs, (Hnil Hf), app_nil_r. done.
Qed.

(** The failing emission comes second in the load and the host has two
    more turns ready, one of them failing as well. *)
Lemma failed_load_stops_first_turn_witness :
  main_status host_fail_then_more = Some (-1)
  ∧ List.filter is_emit (trace (main_world host_fail_then_more))
    = map EvEmit (host_load host_fail_then_more)
  ∧ List.filter is_slot (trace (main_world host_fail_then_more))
    = map (EvSlot (ObjectCreatedLambda url)) (host_load host_fail_then_more).
Proof. apply (failed_load_stops_first_turn host_fail_then_more). reflexivity. Defined.

(** X3.  Wherever the trace of a run shows a call of
    [QCoreApplication::exit], its code is [-1] and the event right before
    it is a call of the connected closure with no object and the requested
    url: [main] asks for no other exit and for none on its own. *)
Theorem exit_only_after_failed_load (h : Host) (l1 l2 : list Event) (c : Z) :
  trace (main_world h) = l1 ++ EvExit c :: l2 →
  c = -1 ∧ ∃ l0 o, l1 = l0 ++ [EvSlot (ObjectCreatedLambda url) o]
                   ∧ lo_obj o = None ∧ lo_url o = url.
Proof.
  revert l1 l2 c.
  change (exits_follow_failed_load url (trace (main_world h))).
  rewrite main_trace_eq. apply exits_follow_app.
  - apply no_exit_exits_follow, startup_events_no_exit.
  - apply loop_events_exits_follow.
Qed.

(** The run of [host_fail]: the exit is the last event, the call of the
    closure the one before. *)
Lemma exit_only_after_failed_load_witness :
  -1 = -1
  ∧ ∃ l0 o,
      startup_events host_fail
        ++ [EvSlot (ObjectCreatedLambda url) (mkOutcome None "qrc:/main.qml")]
      = l0 ++ [EvSlot (ObjectCreatedLambda url) o]
      ∧ lo_obj o = None ∧ lo_url o = url.
Proof.
  apply (exit_only_after_failed_load host_fail
           (startup_events host_fail
              ++ [EvSlot (ObjectCreatedLambda url) (mkOutcome None "qrc:/main.qml")])
           [] (-1)).
  vm_compute. reflexivity.
Defined.

(** X4.  In every run the calls of the closure match the emissions one to
    one and in the same order: what is emitted is the load's emissions
    followed by a prefix of what the host has for the later turns, and the
    closure is called once for each of these, in that order, through the
    one connection [main] makes. *)
Theorem emissions_delivered_once_in_order (h : Host) :
  ∃ d, d `prefix_of` concat (host_turns h)
    ∧ List.filter is_emit (trace (main_world h)) = map EvEmit (host_load h ++ d)
    ∧ List.filter is_slot (trace (main_world h))
      = map (EvSlot (ObjectCreatedLambda url)) (host_load h ++ d).
Proof.
  destruct (main_reach h) as (d & Hd & He & Hs & _). by exists d.
Qed.

(** X5.  When no emission, inside [engine.load] or later, carries no object
    together with the requested url, the loop goes through every turn the
    host has: all emissions happen and are delivered, [main] never calls
    [QCoreApplication::exit], no exit is pending at the end, and [main]
    returns what the host's loop returns. *)
Theorem no_failure_runs_every_turn (h : Host) :
  existsb (fails url) (host_load h ++ concat (host_turns h)) = false →
  List.filter is_emit (trace (main_world h))
    = map EvEmit (host_load h ++ concat (host_turns h))
  ∧ List.filter is_slot (trace (main_world h))
    = map (EvSlot (ObjectCreatedLambda url)) (host_load h ++ concat (host_turns h))
  ∧ List.filter is_exit (trace (main_world h)) = []
  ∧ quit_code (main_world h) = None
  ∧ main_status h = host_exit h.
Proof.
  intros Hf.
  destruct (main_reach h) as (d & _ & He & Hs & _ & Hall).
  rewrite He, Hs, (Hall Hf). split; [done|]. split; [done|].
  pose proof (loop_events_status url (host_turns h) (host_load h)) as Hst.
  rewrite Hf in Hst. split; [|split].
  - rewrite main_trace_eq, List.filter_app.
    rewrite (filter_none is_exit (startup_events h))
      by apply startup_events_no_exit.
    apply filter_none, Forall_forall. intros e He'.
    destruct e; try done.
    apply loop_events_exit_in in He'. congruence.
  - unfold main_world. rewrite main_eq.
    destruct (loop_events _ _ _) as [b es]. simpl in *. by subst b.
  - rewrite main_status_eq, Hst. done.
Qed.

(** Two outcomes for another url and a successful load, in two turns. *)
Lemma no_failure_runs_every_turn_witness :
  List.filter is_emit (trace (main_world host_spurious))
    = map EvEmit (host_load host_spurious ++ concat (host_turns host_spurious))
  ∧ List.filter is_slot (trace (main_world host_spurious))
    = map (EvSlot (ObjectCreatedLambda url))
        (host_load host_spurious ++ concat (host_turns host_spurious))
  ∧ List.filter is_exit (trace (main_world host_spurious)) = []
  ∧ quit_code (main_world host_spurious) = None
  ∧ main_status host_spurious = host_exit host_spurious.
Proof. apply (no_failure_runs_every_turn host_spurious). reflexivity. Defined.

(** X6.  The text [main] publishes under ["usdVersion"] tells the linked
    versions apart: two runs end with the same root context exactly when
    their USD builds have the same version number. *)
Theorem published_text_identifies_version (h1 h2 : Host) :
  rootContext (main_world h1) = rootContext (main_world h2)
  ↔ host_version h1 = host_version h2.
Proof.
  rewrite !main_rootContext_eq. split.
  - intros Heq.
    apply (f_equal (λ m : gmap string string, m !! "usdVersion")) in Heq.
    rewrite !lookup_singleton_eq in Heq. injection Heq as Heq.
    by apply (inj pretty) in Heq.
  - by intros ->.
Qed.
